(** * metro-config-transformers: shape-preserving config transformers

    A shallow embedding of [src/types.ts],
    [src/create-metro-config-transformer.ts] and
    [src/compose-metro-config-transformers.ts], and the properties the
    specification states about them.

    Modelling choices.
    - JavaScript code runs against a world [W] (the heap, and whatever
      else user callbacks touch); a call either returns or throws.  This
      is the monad [M].
    - A [Promise] is the computation that settles it: awaiting runs it
      and gives a fulfilment value or a rejection reason.  The library
      consumes every promise exactly once (one [.then] per promise), so
      this linear reading loses nothing the claims look at.  Calls are
      taken to return or throw and promises to settle.
    - The union [AnyMetroConfig] is the tagged type [anyMetroConfig]; the
      runtime tests [typeof x === "function"] and [x instanceof Promise]
      are matches on its constructors. *)

From stdpp Require Import base option list gmap strings.

Set Default Proof Using "Type".

(** ** Calls that return or throw, over a world *)

Inductive outcome (E A : Type) : Type :=
  | Ok (a : A)
  | Throw (e : E).
Arguments Ok {E A} a.
Arguments Throw {E A} e.

Section Core.

Context {config W err opts : Type}.

(** A synchronous JavaScript call. *)
Definition M (A : Type) : Type := W → outcome err A * W.

Definition ret {A} (a : A) : M A := λ w, (Ok a, w).

Definition throw {A} (e : err) : M A := λ w, (Throw e, w).

Definition bind {A B} (m : M A) (k : A → M B) : M B :=
  λ w, match m w with
       | (Ok a, w1) => k a w1
       | (Throw e, w1) => (Throw e, w1)
       end.

#[local] Notation "x <- m ;; k" := (bind m (λ x, k))
  (at level 100, m at next level, right associativity).

(** ** Promises *)

(** [Promise<A>]: [await] runs the work that settles the promise;
    [Throw] is a rejection. *)
Inductive promise (A : Type) : Type :=
  | Deferred (settles : M A).
Arguments Deferred {A} settles.

Definition await {A} (p : promise A) : M A :=
  match p with Deferred m => m end.

(** [Promise.resolve(a)] and [Promise.reject(e)]. *)
Definition resolved {A} (a : A) : promise A := Deferred (ret a).
Definition rejected {A} (e : err) : promise A := Deferred (throw e).

(** [A | Promise<A>], what a [.then] callback may return. *)
Inductive thenable (A : Type) : Type :=
  | Plain (a : A)
  | Thenable (p : promise A).
Arguments Plain {A} a.
Arguments Thenable {A} p.

(** [result instanceof Promise]. *)
Definition instanceof_Promise {A} (r : thenable A) : bool :=
  match r with Plain _ => false | Thenable _ => true end.

(** [p.then(cb)]: a rejection of [p] skips [cb]; a throw inside [cb]
    rejects; a promise returned by [cb] is adopted. *)
Definition then_ {A B} (p : promise A) (cb : A → M (thenable B)) : promise B :=
  Deferred (a <- await p ;;
            r <- cb a ;;
            match r with
            | Plain b => ret b
            | Thenable q => await q
            end).

(** ** [src/types.ts] *)

(** [MetroConfig | Promise<MetroConfig>]. *)
Definition direct : Type := thenable config.

(** [MetroConfigFunction] and [MetroConfigAsyncFunction]: which of the
    two a callable is shows only in what a call returns. *)
Definition producer : Type := config → M direct.

(** What a promise in [AnyMetroConfig] resolves to:
    [typeof resolved === "function"] or not. *)
Inductive resolution : Type :=
  | RObj (c : config)
  | RFun (f : producer).

(** [AnyMetroConfig]. *)
Inductive anyMetroConfig : Type :=
  | AObj (c : config)
  | AFun (f : producer)
  | APromise (p : promise resolution).

(** The second argument of a transformer call: [t(acc)] leaves it out,
    [t(acc, options)] passes a value that may itself be [undefined]
    ([None]). *)
Inductive optarg : Type :=
  | ArgOmitted
  | ArgGiven (options : option opts).

(** The value an optional parameter [options?] is bound to. *)
Definition param (a : optarg) : option opts :=
  match a with
  | ArgOmitted => None
  | ArgGiven options => options
  end.

(** [Transformer<TOptions>]. *)
Definition transformer : Type := anyMetroConfig → optarg → M anyMetroConfig.

(** [TransformerEntry]: a plain transformer or a [[transformer, options]]
    tuple ([Array.isArray(entry)]). *)
Inductive transformerEntry : Type :=
  | Bare (t : transformer)
  | Tuple (t : transformer) (options : option opts).

(** The mutation handed to [createMetroConfigTransformer]. *)
Definition mutation : Type := config → option opts → M direct.

(** ** [src/create-metro-config-transformer.ts] *)

(** A [Promise<MetroConfig>] seen as a promise in [AnyMetroConfig]. *)
Definition as_resolution (p : promise config) : promise resolution :=
  Deferred (c <- await p ;; ret (RObj c)).

(** The casts [as MutatedType<T>] of a mutation's result. *)
Definition as_thenable (r : direct) : thenable resolution :=
  match r with
  | Plain c => Plain (RObj c)
  | Thenable p => Thenable (as_resolution p)
  end.

Definition as_any (r : direct) : anyMetroConfig :=
  match r with
  | Plain c => AObj c
  | Thenable p => APromise (as_resolution p)
  end.

(** Lines 29-36 and 45-51: the callable returned for a callable. *)
Definition wrapped (mutate : mutation) (options : option opts)
    (input : producer) : producer :=
  λ baseConfig,
    result <- input baseConfig ;;
    match result with
    | Thenable p =>
        ret (Thenable (then_ p (λ config, mutate config options)))
    | Plain c => mutate c options
    end.

Definition createMetroConfigTransformer (mutate : mutation) : transformer :=
  λ input a,
    let options := param a in
    match input with
    | AFun f => ret (AFun (wrapped mutate options f))
    | APromise p =>
        ret (APromise (then_ p (λ resolved,
          match resolved with
          | RFun f => ret (Plain (RFun (wrapped mutate options f)))
          | RObj c => r <- mutate c options ;; ret (as_thenable r)
          end)))
    | AObj c => r <- mutate c options ;; ret (as_any r)
    end.

(** ** [src/compose-metro-config-transformers.ts] *)

(** [Array.prototype.reduce] with an initial value, for a callback that
    may throw. *)
Fixpoint reduce {A B} (callback : B → A → M B) (l : list A) (init : B) : M B :=
  match l with
  | [] => ret init
  | x :: l' => acc <- callback init x ;; reduce callback l' acc
  end.

(** Lines 29-36: the reducer. *)
Definition apply_entry (acc : anyMetroConfig) (entry : transformerEntry)
    : M anyMetroConfig :=
  match entry with
  | Tuple t options => t acc (ArgGiven options)
  | Bare t => t acc ArgOmitted
  end.

Definition composeMetroConfigTransformers (entries : list transformerEntry)
    (input : anyMetroConfig) : M anyMetroConfig :=
  reduce apply_entry entries input.

(** ** The caller's side *)

(** The owner of the configuration consumes an output by invoking it with
    a base configuration if it is callable and awaiting whatever is
    deferred, as the tests do ([result(base)], [await result],
    [await result(base)]).  [settle] runs that to the final
    configuration. *)
Definition settle_direct (r : direct) : M config :=
  match r with
  | Plain c => ret c
  | Thenable p => await p
  end.

Definition settle_resolution (x : resolution) (baseConfig : config) : M config :=
  match x with
  | RObj c => ret c
  | RFun f => r <- f baseConfig ;; settle_direct r
  end.

Definition settle (out : anyMetroConfig) (baseConfig : config) : M config :=
  match out with
  | AObj c => ret c
  | AFun f => r <- f baseConfig ;; settle_direct r
  | APromise p => x <- await p ;; settle_resolution x baseConfig
  end.

(** A call of a transformer followed by the caller settling its output. *)
Definition settled (call : M anyMetroConfig) (baseConfig : config) : M config :=
  out <- call ;; settle out baseConfig.

(** ** Chains of adapted transformers *)

(** An entry whose transformer comes from [createMetroConfigTransformer]. *)
Inductive adapted : Type :=
  | ABare (mutate : mutation)
  | ATuple (mutate : mutation) (options : option opts).

Definition entry_of (u : adapted) : transformerEntry :=
  match u with
  | ABare mutate => Bare (createMetroConfigTransformer mutate)
  | ATuple mutate options => Tuple (createMetroConfigTransformer mutate) options
  end.

(** One mutation run to its configuration: the call, then the wait for
    its promise if it returned one. *)
Definition mutated (mutate : mutation) (options : option opts) (c : config)
    : M config :=
  r <- mutate c options ;; settle_direct r.

Definition step_of (u : adapted) (c : config) : M config :=
  match u with
  | ABare mutate => mutated mutate None c
  | ATuple mutate options => mutated mutate options c
  end.

(** The mutations of a chain, one after the other. *)
Fixpoint steps (us : list adapted) (c : config) : M config :=
  match us with
  | [] => ret c
  | u :: us' => c' <- step_of u c ;; steps us' c'
  end.

(** ** A combined transformer as an entry, and kinds of callbacks *)

(** The function [composeMetroConfigTransformers(...entries)] returns,
    [(input) => entries.reduce(...)], put where a transformer is
    expected: it has one parameter and does not look at a second
    argument. *)
Definition composed (entries : list transformerEntry) : transformer :=
  λ input _, composeMetroConfigTransformers entries input.

Definition mutation_of (u : adapted) : mutation :=
  match u with
  | ABare mutate => mutate
  | ATuple mutate _ => mutate
  end.

(** The options the mutation of an adapted entry is called with. *)
Definition options_of (u : adapted) : option opts :=
  match u with
  | ABare _ => None
  | ATuple _ options => options
  end.

(** A mutation written as a plain function: what it returns is never a
    promise. *)
Definition synchronous (mutate : mutation) : Prop :=
  ∀ c options w r w',
    mutate c options w = (Ok r, w') → instanceof_Promise r = false.

(** A callable written as an [async] function: what it returns is
    always a promise. *)
Definition always_deferred (f : producer) : Prop :=
  ∀ baseConfig w r w',
    f baseConfig w = (Ok r, w') → instanceof_Promise r = true.

(** A callable written as a plain function: what it returns is never a
    promise. *)
Definition never_deferred (f : producer) : Prop :=
  ∀ baseConfig w r w',
    f baseConfig w = (Ok r, w') → instanceof_Promise r = false.

End Core.

Arguments M : clear implicits.
Arguments mutation : clear implicits.
Arguments producer : clear implicits.
Arguments anyMetroConfig : clear implicits.
Arguments transformer : clear implicits.
Arguments transformerEntry : clear implicits.
Arguments adapted : clear implicits.
Arguments resolution : clear implicits.
Arguments direct : clear implicits.
Arguments promise : clear implicits.
Arguments thenable : clear implicits.
Arguments optarg : clear implicits.
Arguments Deferred {W err A} settles.
Arguments Plain {W err A} a.
Arguments Thenable {W err A} p.

(** ** Configurations as objects in a heap *)

(** The tests build configurations as object literals and mutations as
    spreads [{...config, key: value}].  Objects live in a heap and a
    configuration is a reference, so that a mutation could, if it chose
    to, write into the object it was given. *)
Module Heap.

Inductive jsval : Type :=
  | JUndefined
  | JBool (b : bool)
  | JNum (n : Z)
  | JStr (s : string)
  | JArr (l : list string).

Abbreviation loc := positive (only parsing).
Abbreviation object := (gmap string jsval) (only parsing).
Abbreviation heap := (gmap positive (gmap string jsval)) (only parsing).

(** The fields of [config], as the caller reads them. *)
Definition fields (h : heap) (c : loc) : option object := h !! c.

(** [{ ...config, [key]: value }]: a new object. *)
Definition spread_with (key : string) (value : jsval) (c : loc)
    : M heap string loc :=
  λ h, let l := fresh (dom h) in
       (Ok l, <[l := <[key := value]> (default ∅ (h !! c))]> h).

(** [config[key]]; [None] is [undefined]. *)
Definition property (h : heap) (c : loc) (key : string) : option jsval :=
  match h !! c with
  | Some o => o !! key
  | None => None
  end.

(** The characters of a string, as [...s] lists them. *)
Fixpoint characters (s : string) : list string :=
  match s with
  | EmptyString => []
  | String a s' => String a EmptyString :: characters s'
  end.

(** [...value] inside an array literal: the elements of an array, the
    characters of a string; anything else, [undefined] included, is not
    iterable. *)
Definition spread_elements (v : option jsval) : option (list string) :=
  match v with
  | Some (JArr l) => Some l
  | Some (JStr s) => Some (characters s)
  | _ => None
  end.

(** [{ ...config, order: [...config.order, tag] }], the second and third
    mutations of test 5.4; a [TypeError] when [config.order] is not
    iterable. *)
Definition push_tag (tag : string) (c : loc) : M heap string loc :=
  λ h, match spread_elements (property h c "order") with
       | Some l => spread_with "order" (JArr (l ++ [tag])) c h
       | None => (Throw "TypeError", h)
       end.

(** [{ ...config, order: [tag] }], the first mutation of test 5.4. *)
Definition set_tag (tag : string) (c : loc) : M heap string loc :=
  spread_with "order" (JArr [tag]) c.

(** How a mutation delivers its result: returned by a plain function,
    returned by an [async] function whose body has no [await], or
    produced after a wait. *)
Inductive timing : Type := Sync | AsyncNow | AsyncLater.

Definition tagger (t : timing) (tag : string)
    : mutation loc heap string jsval :=
  λ c _,
    match t with
    | Sync => bind (push_tag tag c) (λ l, ret (Plain l))
    | AsyncNow => bind (push_tag tag c) (λ l, ret (Thenable (resolved l)))
    | AsyncLater => ret (Thenable (Deferred (push_tag tag c)))
    end.

Definition tag_entry (e : timing * string) : adapted loc heap string jsval :=
  ABare (tagger e.1 e.2).

(** The mutation that starts the list of markers, with any timing. *)
Definition starter (t : timing) (tag : string)
    : mutation loc heap string jsval :=
  λ c _,
    match t with
    | Sync => bind (set_tag tag c) (λ l, ret (Plain l))
    | AsyncNow => bind (set_tag tag c) (λ l, ret (Thenable (resolved l)))
    | AsyncLater => ret (Thenable (Deferred (set_tag tag c)))
    end.

(** How an adapted transformer is entered in a chain: bare, or in a
    tuple with options. *)
Inductive form : Type :=
  | AsBare
  | AsTuple (options : option jsval).

Definition entry_in (fm : form) (mutate : mutation loc heap string jsval)
    : adapted loc heap string jsval :=
  match fm with
  | AsBare => ABare mutate
  | AsTuple options => ATuple mutate options
  end.

(** The entry that starts the markers and an entry that adds one, each
    entered and timed as [e] says, with the marker [e.2]. *)
Definition first_entry (e : form * timing * string)
    : adapted loc heap string jsval :=
  entry_in e.1.1 (starter e.1.2 e.2).

Definition next_entry (e : form * timing * string)
    : adapted loc heap string jsval :=
  entry_in e.1.1 (tagger e.1.2 e.2).

(** [addKey(key, value)] and its [async] variant, the mutations of the
    end-to-end scenarios. *)
Definition add_key (key : string) (value : jsval)
    : mutation loc heap string jsval :=
  λ c _, bind (spread_with key value c) (λ l, ret (Plain l)).

Definition add_key_async (key : string) (value : jsval)
    : mutation loc heap string jsval :=
  λ c _, bind (spread_with key value c) (λ l, ret (Thenable (resolved l))).

(** [base => ({ ...base, [key]: value })], a producer. *)
Definition spreading (key : string) (value : jsval)
    : producer loc heap string :=
  λ baseConfig, bind (spread_with key value baseConfig) (λ l, ret (Plain l)).

(** [base => base], a producer. *)
Definition passing : producer loc heap string :=
  λ baseConfig, ret (Plain baseConfig).

(** The fields of the configuration a settled call delivers. *)
Definition delivered (r : outcome string loc * heap) : option object :=
  match r with
  | (Ok c, h) => fields h c
  | (Throw _, _) => None
  end.

(** A mutation that does not write into the object it is given. *)
Definition leaves_argument {err opts} (mutate : mutation loc heap err opts)
    : Prop :=
  ∀ (c : loc) (options : option opts) (h : heap),
    is_Some (fields h c) → fields (mutate c options h).2 c = fields h c.

End Heap.

(** ** A small world for examples *)

(** Configurations are numbers and the world counts the calls of the
    mutation, so that a mutation that ran leaves a trace. *)
Module Sample.

Definition add (n : nat) : mutation nat nat string nat :=
  λ c _ calls, (Ok (Plain (c + n)), S calls).

Definition add_async (n : nat) : mutation nat nat string nat :=
  λ c _ calls, (Ok (Thenable (resolved (c + n))), S calls).

Definition add_option : mutation nat nat string nat :=
  λ c options calls, (Ok (Plain (c + default 0 options)), S calls).

Definition failing (e : string) : mutation nat nat string nat :=
  λ _ _ calls, (Throw e, S calls).

Definition rejecting (e : string) : mutation nat nat string nat :=
  λ _ _ calls, (Ok (Thenable (rejected e)), S calls).

Definition double : producer nat nat string :=
  λ baseConfig, ret (Plain (2 * baseConfig)).

Definition double_async : producer nat nat string :=
  λ baseConfig, ret (Thenable (resolved (2 * baseConfig))).

Definition throwing (e : string) : producer nat nat string :=
  λ _, throw e.

Definition rejecting_producer (e : string) : producer nat nat string :=
  λ _, ret (Thenable (rejected e)).

(** A transformer that is not made by the adapter:
    [input => input instanceof Promise ? input.catch(() => fallback) : input]. *)
Definition recovering (fallback : nat) : transformer nat nat string nat :=
  λ input _,
    match input with
    | APromise p =>
        ret (APromise (Deferred (λ w,
          match await p w with
          | (Throw _, w1) => (Ok (RObj fallback), w1)
          | r => r
          end)))
    | _ => ret input
    end.

(** A transformer that is not made by the adapter:
    [input => { calls++; return input; }].  It hands its input on and
    leaves a trace of having been called. *)
Definition announcing : transformer nat nat string nat :=
  λ input _ calls, (Ok input, S calls).

(** A transformer that is not made by the adapter and tells a call with
    one argument from a call with two. *)
Definition arity_probe : transformer nat nat string nat :=
  λ input a,
    match a with
    | ArgOmitted => ret (AObj 1)
    | ArgGiven _ => ret (AObj 2)
    end.

End Sample.

(** * Properties *)

(** Case analysis on the calls a computation makes, in program order. *)
Ltac step_call :=
  match goal with
  | |- context [as_any ?r] => is_var r; destruct r
  | |- context [as_thenable ?r] => is_var r; destruct r
  | |- context [settle_direct ?r] => is_var r; destruct r
  | |- context [match ?r with Plain _ => _ | Thenable _ => _ end] =>
      is_var r; destruct r
  | |- context [match ?x with RObj _ => _ | RFun _ => _ end] =>
      is_var x; destruct x
  | |- context [match ?m ?w with pair _ _ => _ end] =>
      let E := fresh "E" in destruct (m w) as [[?|?] ?] eqn:E
  end.

Ltac simp_calls :=
  repeat progress
    (cbn [await settle settle_direct settle_resolution as_any
          as_thenable as_resolution then_ resolved rejected];
     unfold bind, ret, throw; cbv beta iota).

Ltac run_calls := simp_calls; repeat (step_call; simp_calls).

Section Laws.

Context {W err : Type}.

#[local] Notation "x <- m ;; k" := (bind m (λ x, k))
  (at level 100, m at next level, right associativity).

Lemma bind_ret_l {A B} (a : A) (k : A → M W err B) w :
  (x <- ret a ;; k x) w = k a w.
Proof. reflexivity. Qed.

Lemma bind_ret_r {A} (m : M W err A) w :
  (x <- m ;; ret x) w = m w.
Proof. unfold bind, ret. by destruct (m w) as [[?|?] ?]. Qed.

Lemma bind_assoc {A B C} (m : M W err A) (k : A → M W err B)
    (k' : B → M W err C) w :
  (y <- (x <- m ;; k x) ;; k' y) w = (x <- m ;; y <- k x ;; k' y) w.
Proof. unfold bind. by destruct (m w) as [[?|?] ?]. Qed.

Lemma bind_ext {A B} (m : M W err A) (k k' : A → M W err B) w :
  (∀ a w', k a w' = k' a w') →
  (x <- m ;; k x) w = (x <- m ;; k' x) w.
Proof. intros Hk. unfold bind. destruct (m w) as [[?|?] ?]; auto. Qed.

Lemma bind_ext_l {A B} (m m' : M W err A) (k : A → M W err B) w :
  m w = m' w → (x <- m ;; k x) w = (x <- m' ;; k x) w.
Proof. intros Hm. unfold bind. by rewrite Hm. Qed.

Lemma bind_ok {A B} (m : M W err A) (k : A → M W err B) w a w1 :
  m w = (Ok a, w1) → (x <- m ;; k x) w = k a w1.
Proof. intros E. unfold bind. by rewrite E. Qed.

Lemma bind_throw {A B} (m : M W err A) (k : A → M W err B) w e w1 :
  m w = (Throw e, w1) → (x <- m ;; k x) w = (Throw e, w1).
Proof. intros E. unfold bind. by rewrite E. Qed.

(** [reduce] over a concatenation: the second part starts from the
    accumulator the first part ends with. *)
Lemma reduce_app {A B} (cb : B → A → M W err B) (l1 l2 : list A) init w :
  reduce cb (l1 ++ l2) init w = (acc <- reduce cb l1 init ;; reduce cb l2 acc) w.
Proof.
  revert init w. induction l1 as [|x l1 IH]; intros init w; simpl.
  - reflexivity.
  - rewrite bind_assoc. apply bind_ext. intros acc w'. apply IH.
Qed.

End Laws.

Section Adapter.

Context {config W err opts : Type}.

#[local] Notation "x <- m ;; k" := (bind m (λ x, k))
  (at level 100, m at next level, right associativity).

Implicit Types (mutate : mutation config W err opts)
  (f : producer config W err)
  (input : anyMetroConfig config W err)
  (options : option opts) (a : optarg opts).

(** Settling the callable the adapter returns for [f]: settle what [f]
    returns, then run the mutation on it. *)
Lemma wrapped_settles mutate options f (baseConfig : config) (w : W) :
  (r <- wrapped mutate options f baseConfig ;; settle_direct r) w
  = (c <- settle (AFun f) baseConfig ;; mutated mutate options c) w.
Proof.
  unfold wrapped, mutated. cbn [settle]. rewrite !bind_assoc. apply bind_ext.
  intros [c|p] w'; by run_calls.
Qed.

(** The adapter against the caller: whatever the shape of the input,
    the settled output is the settled input with the mutation run on it,
    with the options the transformer was called with. *)
Lemma adapter_settles mutate input a (baseConfig : config) (w : W) :
  settled (createMetroConfigTransformer mutate input a) baseConfig w
  = (c <- settle input baseConfig ;; mutated mutate (param a) c) w.
Proof.
  unfold settled. destruct input as [c|f|p]; cbn [createMetroConfigTransformer].
  - unfold mutated. by run_calls.
  - rewrite bind_ret_l. cbn [settle]. apply wrapped_settles.
  - rewrite bind_ret_l. cbn [settle then_ await].
    rewrite !bind_assoc. apply bind_ext. intros [c|f] w'.
    + unfold mutated. by run_calls.
    + exact (wrapped_settles mutate (param a) f baseConfig w').
Qed.

End Adapter.

Section Composer.

Context {config W err opts : Type}.

#[local] Notation "x <- m ;; k" := (bind m (λ x, k))
  (at level 100, m at next level, right associativity).

Implicit Types (mutate : mutation config W err opts)
  (input acc : anyMetroConfig config W err)
  (e : transformerEntry config W err opts)
  (es : list (transformerEntry config W err opts))
  (u : adapted config W err opts)
  (us : list (adapted config W err opts))
  (baseConfig : config) (w : W).

Lemma compose_app es1 es2 input w :
  composeMetroConfigTransformers (es1 ++ es2) input w
  = (acc <- composeMetroConfigTransformers es1 input ;;
     composeMetroConfigTransformers es2 acc) w.
Proof. apply reduce_app. Qed.

Lemma compose_cons e es input w :
  composeMetroConfigTransformers (e :: es) input w
  = (acc <- apply_entry input e ;; composeMetroConfigTransformers es acc) w.
Proof. reflexivity. Qed.

(** The entry in the middle of a chain works on what the entries before
    it produced, and the entries after it on what it produces. *)
Lemma compose_middle es1 e es2 input w :
  composeMetroConfigTransformers (es1 ++ e :: es2) input w
  = (acc <- composeMetroConfigTransformers es1 input ;;
     acc' <- apply_entry acc e ;;
     composeMetroConfigTransformers es2 acc') w.
Proof. rewrite compose_app. apply bind_ext. intros acc w'. apply compose_cons. Qed.

Lemma compose_snoc es e input w :
  composeMetroConfigTransformers (es ++ [e]) input w
  = (acc <- composeMetroConfigTransformers es input ;; apply_entry acc e) w.
Proof.
  rewrite compose_middle. apply bind_ext. intros acc w'.
  cbn [composeMetroConfigTransformers reduce]. apply bind_ret_r.
Qed.

Lemma entry_settles u acc baseConfig w :
  settled (apply_entry acc (entry_of u)) baseConfig w
  = (c <- settle acc baseConfig ;; step_of u c) w.
Proof.
  destruct u as [mutate|mutate options]; cbn [entry_of apply_entry step_of].
  - exact (adapter_settles mutate acc ArgOmitted baseConfig w).
  - exact (adapter_settles mutate acc (ArgGiven options) baseConfig w).
Qed.

Lemma steps_app us1 us2 (c : config) w :
  steps (us1 ++ us2) c w = (c' <- steps us1 c ;; steps us2 c') w.
Proof.
  revert c w. induction us1 as [|u us1 IH]; intros c w; simpl.
  - reflexivity.
  - rewrite bind_assoc. apply bind_ext. intros c' w'. apply IH.
Qed.

(** A chain of adapted transformers against the caller: the settled
    output is the settled input with the mutations run on it in entry
    order, each on the configuration the one before it delivered. *)
Lemma chain_settles us input baseConfig w :
  settled (composeMetroConfigTransformers (map entry_of us) input) baseConfig w
  = (c <- settle input baseConfig ;; steps us c) w.
Proof.
  revert input w. induction us as [|u us IH]; intros input w.
  - unfold settled. cbn. by rewrite bind_ret_r.
  - cbn [map steps]. unfold settled.
    change (composeMetroConfigTransformers (entry_of u :: map entry_of us) input)
      with (acc <- apply_entry input (entry_of u) ;;
            composeMetroConfigTransformers (map entry_of us) acc).
    rewrite bind_assoc.
    etrans; [apply bind_ext; intros acc w'; apply IH|].
    rewrite <- !bind_assoc. unfold bind at 1 3.
    pose proof (entry_settles u input baseConfig w) as Hu. unfold settled in Hu.
    by rewrite Hu.
Qed.

(** Adapted entries after any entries: the settled output is the settled
    output of the chain so far, with the mutations of the followers run
    on it. *)
Lemma followers_settle es us input baseConfig w :
  settled (composeMetroConfigTransformers (es ++ map entry_of us) input)
    baseConfig w
  = (c <- settled (composeMetroConfigTransformers es input) baseConfig ;;
     steps us c) w.
Proof.
  unfold settled at 1. etrans; [apply bind_ext_l, compose_app|].
  rewrite bind_assoc. unfold settled. rewrite bind_assoc.
  apply bind_ext. intros acc w'. apply chain_settles.
Qed.

End Composer.

(** * The adapter, shape by shape *)

Section AdapterShapes.

Context {config W err opts : Type}.

#[local] Notation "x <- m ;; k" := (bind m (λ x, k))
  (at level 100, m at next level, right associativity).

Implicit Types (mutate : mutation config W err opts)
  (f : producer config W err)
  (options : option opts) (a : optarg opts)
  (baseConfig c : config) (w : W).

(** What the wrapped callable does, by what the inner callable does. *)
Lemma wrapped_cases mutate options f baseConfig w :
  match f baseConfig w with
  | (Throw e, w1) => wrapped mutate options f baseConfig w = (Throw e, w1)
  | (Ok (Plain c), w1) =>
      wrapped mutate options f baseConfig w = mutate c options w1
  | (Ok (Thenable p), w1) =>
      wrapped mutate options f baseConfig w
      = (Ok (Thenable (then_ p (λ config, mutate config options))), w1)
  end.
Proof. unfold wrapped, bind. by destruct (f baseConfig w) as [[[c|p]|e] w1]. Qed.

Lemma await_then_mutate mutate options (p : promise W err config) w :
  await (then_ p (λ config, mutate config options)) w
  = (c <- await p ;; mutated mutate options c) w.
Proof. unfold mutated. by run_calls. Qed.

(** C1. For a callable input the adapter returns a new callable, without
    calling anything.  Invoked with a base configuration, that callable
    throws what the inner callable throws; on a plain inner result it
    returns what [mutate] returns for it; on a deferred inner result it
    returns a promise that awaits the inner one and then runs [mutate] on
    the awaited configuration.  So a result it returns is deferred
    exactly when the inner callable returned a promise or [mutate]
    returned one in that invocation. *)
Theorem adapter_on_callable mutate f a w :
  createMetroConfigTransformer mutate (AFun f) a w
    = (Ok (AFun (wrapped mutate (param a) f)), w)
  ∧ (∀ baseConfig w0 r w',
      wrapped mutate (param a) f baseConfig w0 = (Ok r, w') →
      instanceof_Promise r = true ↔
        (∃ p, f baseConfig w0 = (Ok (Thenable p), w'))
        ∨ (∃ c w1 q, f baseConfig w0 = (Ok (Plain c), w1)
                     ∧ mutate c (param a) w1 = (Ok (Thenable q), w')))
  ∧ (∀ baseConfig w0 p w1,
      f baseConfig w0 = (Ok (Thenable p), w1) →
      ∃ q, wrapped mutate (param a) f baseConfig w0 = (Ok (Thenable q), w1)
           ∧ ∀ w2, await q w2
                   = (c <- await p ;; mutated mutate (param a) c) w2).
Proof.
  split; [reflexivity|]. split.
  - intros baseConfig w0 r w' Hr.
    pose proof (wrapped_cases mutate (param a) f baseConfig w0) as Hc.
    destruct (f baseConfig w0) as [[[c|p]|e] w1]; rewrite Hc in Hr.
    + split.
      * intros Hd. right. exists c, w1. destruct r as [c'|q]; [done|]. eauto.
      * intros [[p Hp]|(c' & w1' & q & Hf & Hm)]; [done|].
        simplify_eq. rewrite Hm in Hr. by simplify_eq.
    + simplify_eq. split; [|done]. intros _. left. eauto.
    + done.
  - intros baseConfig w0 p w1 Hf.
    pose proof (wrapped_cases mutate (param a) f baseConfig w0) as Hc.
    rewrite Hf in Hc. eexists. split; [exact Hc|].
    intros w2. apply await_then_mutate.
Qed.

(** C2. For a promise input the adapter returns a promise, without
    calling anything.  Awaited, that promise rejects as the input
    rejects; on a configuration it resolves to the configuration
    [mutate] delivers for it; on a callable it resolves to a new
    callable, which invoked with a base configuration throws what the
    resolved callable throws, returns what [mutate] returns for a plain
    result of it, and for a deferred result of it returns a promise
    that awaits that result and then runs [mutate] on it.  An input
    that resolves to a configuration gives an output that can only
    resolve to a configuration. *)
Theorem adapter_on_promise mutate
    (p : promise W err (resolution config W err)) a w :
  ∃ q, createMetroConfigTransformer mutate (APromise p) a w
         = (Ok (APromise q), w)
    ∧ (∀ w0, await q w0
         = match await p w0 with
           | (Throw e, w1) => (Throw e, w1)
           | (Ok (RFun f), w1) =>
               (Ok (RFun (wrapped mutate (param a) f)), w1)
           | (Ok (RObj c), w1) =>
               (c' <- mutated mutate (param a) c ;; ret (RObj c')) w1
           end)
    ∧ (∀ w0 c w1, await p w0 = (Ok (RObj c), w1) →
         ∀ x w2, await q w0 = (Ok x, w2) → ∃ c', x = RObj c')
    ∧ (∀ w0 f w1, await p w0 = (Ok (RFun f), w1) →
         ∃ g, await q w0 = (Ok (RFun g), w1)
           ∧ ∀ baseConfig w2,
               match f baseConfig w2 with
               | (Throw e, w3) => g baseConfig w2 = (Throw e, w3)
               | (Ok (Plain c), w3) =>
                   g baseConfig w2 = mutate c (param a) w3
               | (Ok (Thenable r), w3) =>
                   ∃ r', g baseConfig w2 = (Ok (Thenable r'), w3)
                     ∧ ∀ w4, await r' w4
                             = (c <- await r ;;
                                mutated mutate (param a) c) w4
               end).
Proof.
  eexists. split; [reflexivity|].
  assert (∀ w0, await (then_ p (λ resolved0,
            match resolved0 with
            | RFun f => ret (Plain (RFun (wrapped mutate (param a) f)))
            | RObj c => r <- mutate c (param a) ;; ret (as_thenable r)
            end)) w0
          = match await p w0 with
            | (Throw e, w1) => (Throw e, w1)
            | (Ok (RFun f), w1) =>
                (Ok (RFun (wrapped mutate (param a) f)), w1)
            | (Ok (RObj c), w1) =>
                (c' <- mutated mutate (param a) c ;; ret (RObj c')) w1
            end) as Hq.
  { intros w0. unfold mutated. cbn [then_ await]. unfold bind at 1.
    destruct (await p w0) as [[[c|f]|e] w1]; [|done..]. by run_calls. }
  split; [exact Hq|]. split.
  - intros w0 c w1 Hp x w2. rewrite Hq, Hp. unfold mutated.
    run_calls; intros; simplify_eq; eauto.
  - intros w0 f w1 Hp. exists (wrapped mutate (param a) f).
    split; [by rewrite Hq, Hp|].
    intros baseConfig w2.
    pose proof (wrapped_cases mutate (param a) f baseConfig w2) as Hc.
    destruct (f baseConfig w2) as [[[c|r]|e] w3]; [done| |done].
    eexists. split; [exact Hc|]. intros w4. apply await_then_mutate.
Qed.

(** C3. For a direct input the adapter returns what [mutate] returns for
    it with the options of the call: the configuration itself when
    [mutate] returns one, a promise of it only when [mutate] returns a
    promise, and it throws what [mutate] throws. *)
Theorem adapter_on_direct mutate c a w :
  match mutate c (param a) w with
  | (Ok (Plain c'), w1) =>
      createMetroConfigTransformer mutate (AObj c) a w = (Ok (AObj c'), w1)
  | (Ok (Thenable p), w1) =>
      ∃ q, createMetroConfigTransformer mutate (AObj c) a w
             = (Ok (APromise q), w1)
           ∧ ∀ w2, await q w2 = (c' <- await p ;; ret (RObj c')) w2
  | (Throw e, w1) =>
      createMetroConfigTransformer mutate (AObj c) a w = (Throw e, w1)
  end.
Proof.
  cbn [createMetroConfigTransformer]. unfold bind.
  destruct (mutate c (param a) w) as [[[c'|p]|e] w1]; [done| |done].
  eexists. split; [reflexivity|]. done.
Qed.

End AdapterShapes.

Section AdapterFailure.

Context {config W err opts : Type}.

#[local] Notation "x <- m ;; k" := (bind m (λ x, k))
  (at level 100, m at next level, right associativity).

Implicit Types (mutate : mutation config W err opts)
  (f : producer config W err)
  (input : anyMetroConfig config W err)
  (a : optarg opts) (baseConfig : config) (w : W).

(** C8. When the inner callable throws, the wrapped callable throws the
    same error and leaves the world as the inner callable left it; when
    the inner callable returns a promise that rejects, the wrapped
    callable returns a promise that rejects with the same reason, again
    in the world the inner promise left.  This holds whatever [mutate]
    is, so [mutate] has not run.  As the caller sees it: if settling the
    input fails, settling the adapter's output fails the same way. *)
Theorem inner_failure mutate f a baseConfig w :
  (∀ e w1, f baseConfig w = (Throw e, w1) →
     wrapped mutate (param a) f baseConfig w = (Throw e, w1))
  ∧ (∀ p w1, f baseConfig w = (Ok (Thenable p), w1) →
     ∃ q, wrapped mutate (param a) f baseConfig w = (Ok (Thenable q), w1)
          ∧ ∀ w2 e w3, await p w2 = (Throw e, w3) →
                       await q w2 = (Throw e, w3))
  ∧ (∀ input e w1, settle input baseConfig w = (Throw e, w1) →
     settled (createMetroConfigTransformer mutate input a) baseConfig w
     = (Throw e, w1)).
Proof.
  split; [|split].
  - intros e w1 Hf. pose proof (wrapped_cases mutate (param a) f baseConfig w) as Hc.
    by rewrite Hf in Hc.
  - intros p w1 Hf. pose proof (wrapped_cases mutate (param a) f baseConfig w) as Hc.
    rewrite Hf in Hc. eexists. split; [exact Hc|].
    intros w2 e w3 Hp. rewrite await_then_mutate. by apply bind_throw.
  - intros input e w1 Hs. rewrite adapter_settles. by apply bind_throw.
Qed.

End AdapterFailure.

(** * The composer *)

Section ComposerClaims.

Context {config W err opts : Type}.

#[local] Notation "x <- m ;; k" := (bind m (λ x, k))
  (at level 100, m at next level, right associativity).

Implicit Types (mutate : mutation config W err opts)
  (t : transformer config W err opts)
  (input acc : anyMetroConfig config W err)
  (e : transformerEntry config W err opts)
  (es : list (transformerEntry config W err opts))
  (u : adapted config W err opts)
  (us : list (adapted config W err opts))
  (options : option opts)
  (baseConfig : config) (w : W).

(** C6. With no entries the combined transformer returns its input, the
    very value, and does nothing else. *)
Theorem compose_empty input w :
  composeMetroConfigTransformers (opts := opts) [] input w = (Ok input, w).
Proof. reflexivity. Qed.

(** C5. If an entry throws while the fold runs, the combined transformer
    throws that error from the world the entry left, whatever entries
    follow: none of them is called.  If a chain fails in any way, while
    the fold runs or when its output is settled, then with adapted
    entries after it the chain fails with the same error in the same
    world: none of their mutations runs.  In a chain of adapted entries
    the error is the one of the first mutation that throws or rejects. *)
Theorem chain_failure :
  (∀ es1 e es2 input w acc w1 x w2,
     composeMetroConfigTransformers es1 input w = (Ok acc, w1) →
     apply_entry acc e w1 = (Throw x, w2) →
     composeMetroConfigTransformers (es1 ++ e :: es2) input w = (Throw x, w2))
  ∧ (∀ es us input baseConfig w x w',
     settled (composeMetroConfigTransformers es input) baseConfig w
       = (Throw x, w') →
     settled (composeMetroConfigTransformers (es ++ map entry_of us) input)
       baseConfig w = (Throw x, w'))
  ∧ (∀ us1 u us2 input baseConfig w (c : config) w1 x w2,
     settled (composeMetroConfigTransformers (map entry_of us1) input)
       baseConfig w = (Ok c, w1) →
     step_of u c w1 = (Throw x, w2) →
     settled (composeMetroConfigTransformers (map entry_of (us1 ++ u :: us2)) input)
       baseConfig w = (Throw x, w2)).
Proof.
  split; [|split].
  - intros es1 e es2 input w acc w1 x w2 H1 He.
    rewrite compose_middle. rewrite (bind_ok _ _ _ _ _ H1).
    by apply bind_throw.
  - intros es us input baseConfig w x w' Hes.
    rewrite followers_settle. by apply bind_throw.
  - intros us1 u us2 input baseConfig w c w1 x w2 H1 Hu.
    rewrite map_app. rewrite followers_settle.
    rewrite (bind_ok _ _ _ _ _ H1). cbn [steps]. by apply bind_throw.
Qed.

(** C7. A tuple entry calls its transformer with the accumulator and the
    tuple's options; a bare entry calls it with the accumulator alone.
    When the transformer is an adapted one, its mutation runs with the
    tuple's options in the first case and with [undefined] in the
    second, whatever the shape of the accumulator. *)
Theorem options_pass_through :
  (∀ t options acc w,
     apply_entry acc (Tuple t options) w = t acc (ArgGiven options) w)
  ∧ (∀ t acc w, apply_entry acc (Bare t) w = t acc ArgOmitted w)
  ∧ (∀ mutate options es input baseConfig w,
     settled (composeMetroConfigTransformers
                (es ++ [Tuple (createMetroConfigTransformer mutate) options])
                input) baseConfig w
     = (acc <- composeMetroConfigTransformers es input ;;
        c <- settle acc baseConfig ;;
        mutated mutate options c) w)
  ∧ (∀ mutate es input baseConfig w,
     settled (composeMetroConfigTransformers
                (es ++ [Bare (createMetroConfigTransformer mutate)])
                input) baseConfig w
     = (acc <- composeMetroConfigTransformers es input ;;
        c <- settle acc baseConfig ;;
        mutated mutate None c) w).
Proof.
  split; [done|]. split; [done|]. split.
  - intros mutate options es input baseConfig w. unfold settled.
    etrans; [apply bind_ext_l, compose_snoc|]. rewrite bind_assoc.
    apply bind_ext. intros acc w'.
    exact (adapter_settles mutate acc (ArgGiven options) baseConfig w').
  - intros mutate es input baseConfig w. unfold settled.
    etrans; [apply bind_ext_l, compose_snoc|]. rewrite bind_assoc.
    apply bind_ext. intros acc w'.
    exact (adapter_settles mutate acc ArgOmitted baseConfig w').
Qed.

(** An entry with [undefined] options and the bare entry are
    interchangeable anywhere in a chain, for an adapted transformer. *)
Lemma undefined_options_anywhere mutate es1 es2 input w :
  composeMetroConfigTransformers
    (es1 ++ Tuple (createMetroConfigTransformer mutate) None :: es2) input w
  = composeMetroConfigTransformers
      (es1 ++ Bare (createMetroConfigTransformer mutate) :: es2) input w.
Proof. by rewrite !compose_middle. Qed.

(** C10. For an adapted transformer, the chain of the single entry
    [[T, undefined]] and the chain of the single bare entry [T] do the
    same on every input: the same outcome in the same world, and in
    both the mutation runs with [undefined] options. *)
Theorem undefined_options_is_bare mutate :
  (∀ input w,
     composeMetroConfigTransformers
       [Tuple (createMetroConfigTransformer mutate) None] input w
     = composeMetroConfigTransformers
         [Bare (createMetroConfigTransformer mutate)] input w)
  ∧ (∀ input baseConfig w,
     settled (composeMetroConfigTransformers
                [Tuple (createMetroConfigTransformer mutate) None] input)
       baseConfig w
     = (c <- settle input baseConfig ;; mutated mutate None c) w)
  ∧ (∀ input baseConfig w,
     settled (composeMetroConfigTransformers
                [Bare (createMetroConfigTransformer mutate)] input)
       baseConfig w
     = (c <- settle input baseConfig ;; mutated mutate None c) w).
Proof.
  split; [done|]. split.
  - intros input baseConfig w.
    etrans; [exact (chain_settles [ATuple mutate None] input baseConfig w)|].
    apply bind_ext. intros c w'. cbn. by rewrite bind_ret_r.
  - intros input baseConfig w.
    etrans; [exact (chain_settles [ABare mutate] input baseConfig w)|].
    apply bind_ext. intros c w'. cbn. by rewrite bind_ret_r.
Qed.

End ComposerClaims.

(** * Configurations in the heap *)

Import Heap.

Lemma property_spread (key : string) (value : jsval) (c : loc) (h : heap) :
  ∃ (l : loc) (h' : heap),
    spread_with key value c h = (Ok l, h') ∧ property h' l key = Some value.
Proof.
  unfold spread_with. eexists _, _. split; [reflexivity|].
  unfold property. by rewrite !lookup_insert_eq.
Qed.

Lemma push_tag_order (tag : string) (c : loc) (h : heap) (l0 : list string) :
  spread_elements (property h c "order") = Some l0 →
  ∃ (l : loc) (h' : heap),
    push_tag tag c h = (Ok l, h')
    ∧ property h' l "order" = Some (JArr (l0 ++ [tag])).
Proof.
  intros Hl0. unfold push_tag. rewrite Hl0. apply property_spread.
Qed.

(** Whatever its timing, a mutation of test 5.4 run to its configuration
    is the spread it is made of. *)
Lemma tagger_settles (t : timing) (tag : string) options (c : loc) (h : heap) :
  mutated (tagger t tag) options c h = push_tag tag c h.
Proof.
  destruct t; unfold mutated, tagger, bind, ret; cbn;
    by destruct (push_tag tag c h) as [[?|?] ?].
Qed.

Lemma starter_settles (t : timing) (tag : string) options (c : loc) (h : heap) :
  mutated (starter t tag) options c h = set_tag tag c h.
Proof. by destruct t. Qed.

Lemma next_entry_step (e : form * timing * string) (c : loc) (h : heap) :
  step_of (next_entry e) c h = push_tag e.2 c h.
Proof. destruct e as [[[|o] t] tag]; apply tagger_settles. Qed.

Lemma first_entry_step (e : form * timing * string) (c : loc) (h : heap) :
  step_of (first_entry e) c h = set_tag e.2 c h.
Proof. destruct e as [[[|o] t] tag]; apply starter_settles. Qed.

Lemma steps_tags (rest : list (form * timing * string)) (c : loc) (h : heap)
    (l0 : list string) :
  property h c "order" = Some (JArr l0) →
  ∃ (c' : loc) (h' : heap),
    steps (map next_entry rest) c h = (Ok c', h')
    ∧ property h' c' "order" = Some (JArr (l0 ++ rest.*2)).
Proof.
  revert c h l0. induction rest as [|e rest IH]; intros c h l0 Hl0.
  - exists c, h. split; [reflexivity|]. by rewrite app_nil_r.
  - destruct (push_tag_order e.2 c h l0) as (l & h1 & Hpush & Hl).
    { by rewrite Hl0. }
    destruct (IH l h1 _ Hl) as (c' & h' & Hsteps & Hc').
    exists c', h'. split.
    + cbn [map steps].
      etrans; [apply bind_ext_l, next_entry_step|].
      by rewrite (bind_ok _ _ _ _ _ Hpush).
    + rewrite Hc'. cbn [fmap list_fmap]. by rewrite <- app_assoc.
Qed.

(** C4. The combined transformer is a left fold: a bare entry is called
    on the accumulator the entries before it produced (the first one on
    the input), a tuple entry on that accumulator and its options, and
    the entries after it continue from what it returns.  With a first
    entry that starts [config.order] with its marker and further entries
    that each append theirs, entered bare or in tuples, plain or
    deferred, in any mixture, the configuration the caller ends up with
    carries exactly the markers in entry order, whatever the shape of
    the input; and on an input whose [order] can be spread, entries that
    each append a marker leave the markers in entry order after what was
    there. *)
Theorem markers_in_entry_order :
  (∀ (config W err opts : Type)
     (es1 : list (transformerEntry config W err opts)) t es2 input (w : W),
     composeMetroConfigTransformers (es1 ++ Bare t :: es2) input w
     = bind (composeMetroConfigTransformers es1 input)
         (λ acc, bind (t acc ArgOmitted)
                   (composeMetroConfigTransformers es2)) w)
  ∧ (∀ (config W err opts : Type)
       (es1 : list (transformerEntry config W err opts)) t options es2
       input (w : W),
     composeMetroConfigTransformers (es1 ++ Tuple t options :: es2) input w
     = bind (composeMetroConfigTransformers es1 input)
         (λ acc, bind (t acc (ArgGiven options))
                   (composeMetroConfigTransformers es2)) w)
  ∧ (∀ (first : form * timing * string)
       (rest : list (form * timing * string)) input (baseConfig : loc)
       (h : heap) (c0 : loc) (h0 : heap),
     settle input baseConfig h = (Ok c0, h0) →
     ∃ (c : loc) (h' : heap),
       settled (composeMetroConfigTransformers
                  (map entry_of (first_entry first :: map next_entry rest))
                  input) baseConfig h
       = (Ok c, h')
       ∧ property h' c "order" = Some (JArr (first.2 :: rest.*2)))
  ∧ (∀ (e : form * timing * string) (rest : list (form * timing * string))
       input (baseConfig : loc) (h : heap) (c0 : loc) (h0 : heap)
       (l0 : list string),
     settle input baseConfig h = (Ok c0, h0) →
     spread_elements (property h0 c0 "order") = Some l0 →
     ∃ (c : loc) (h' : heap),
       settled (composeMetroConfigTransformers
                  (map entry_of (map next_entry (e :: rest)))
                  input) baseConfig h
       = (Ok c, h')
       ∧ property h' c "order" = Some (JArr (l0 ++ (e :: rest).*2))).
Proof.
  split; [|split; [|split]].
  - intros config W err opts es1 t es2 input w.
    exact (compose_middle es1 (Bare t) es2 input w).
  - intros config W err opts es1 t options es2 input w.
    exact (compose_middle es1 (Tuple t options) es2 input w).
  - intros first rest input baseConfig h c0 h0 Hin.
    destruct (property_spread "order" (JArr [first.2]) c0 h0)
      as (l & h1 & Hset & Hl).
    destruct (steps_tags rest l h1 _ Hl) as (c & h' & Hsteps & Horder).
    exists c, h'. split; [|exact Horder].
    rewrite chain_settles, (bind_ok _ _ _ _ _ Hin). cbn [steps].
    etrans; [apply bind_ext_l, first_entry_step|].
    unfold set_tag. by rewrite (bind_ok _ _ _ _ _ Hset).
  - intros e rest input baseConfig h c0 h0 l0 Hin Hl0.
    destruct (push_tag_order e.2 c0 h0 l0 Hl0) as (l & h1 & Hpush & Hl).
    destruct (steps_tags rest l h1 _ Hl) as (c & h' & Hsteps & Horder).
    exists c, h'. split.
    + rewrite chain_settles, (bind_ok _ _ _ _ _ Hin). cbn [map steps].
      etrans; [apply bind_ext_l, next_entry_step|].
      by rewrite (bind_ok _ _ _ _ _ Hpush).
    + rewrite Horder. cbn [fmap list_fmap]. by rewrite <- app_assoc.
Qed.

(** C9. The adapter does nothing to a direct input but hand it to the
    mutation: if the mutation does not write into the object it is
    given, the fields of the input are, when the transformer returns,
    what they were before the call. *)
Theorem direct_input_untouched {err opts}
    (mutate : mutation loc heap err opts) (c : loc) (a : optarg opts)
    (h : heap) :
  leaves_argument mutate →
  is_Some (fields h c) →
  fields (createMetroConfigTransformer mutate (AObj c) a h).2 c = fields h c.
Proof.
  intros Hmut Hc. rewrite <- (Hmut c (param a) h Hc).
  cbn [createMetroConfigTransformer]. unfold bind.
  by destruct (mutate c (param a) h) as [[r|e] h1].
Qed.

(** A spread allocates and writes nowhere else. *)
Lemma tagger_leaves_argument (t : timing) (tag : string) :
  leaves_argument (tagger t tag).
Proof.
  intros c options h Hc. unfold fields in *.
  assert (fresh (dom h) ≠ c) as Hne.
  { intros <-. apply (is_fresh (dom h)). by apply elem_of_dom. }
  destruct t; unfold tagger, bind, ret, push_tag, spread_with;
    destruct (spread_elements (property h c "order")); cbn;
    by rewrite ?lookup_insert_ne.
Qed.

(** * The scenarios of the specification *)

(** Scenario A: a direct input through two plain mutations. *)
Example scenario_direct :
  delivered
    (settled (composeMetroConfigTransformers
                [Bare (createMetroConfigTransformer (add_key "b" (JNum 2)));
                 Bare (createMetroConfigTransformer (add_key "c" (JNum 3)))]
                (AObj 1%positive))
       2%positive {[1%positive := {["a" := JNum 1]}]})
  = Some {["a" := JNum 1; "b" := JNum 2; "c" := JNum 3]}.
Proof. vm_compute. reflexivity. Qed.

(** Scenario B: a producer input; the result is invoked with [{a: 1}]. *)
Example scenario_producer :
  delivered
    (settled (composeMetroConfigTransformers
                [Bare (createMetroConfigTransformer (add_key "y" (JBool true)))]
                (AFun (spreading "x" (JBool true))))
       1%positive {[1%positive := {["a" := JNum 1]}]})
  = Some {["a" := JNum 1; "x" := JBool true; "y" := JBool true]}.
Proof. vm_compute. reflexivity. Qed.

(** Scenario C: a deferred input through a deferred mutation. *)
Example scenario_deferred :
  delivered
    (settled (composeMetroConfigTransformers
                [Bare (createMetroConfigTransformer (add_key_async "b" (JNum 2)))]
                (APromise (resolved (RObj 1%positive))))
       2%positive {[1%positive := {["a" := JNum 1]}]})
  = Some {["a" := JNum 1; "b" := JNum 2]}.
Proof. vm_compute. reflexivity. Qed.

(** Scenario D: a deferred input that resolves to a producer. *)
Example scenario_deferred_producer :
  delivered
    (settled (composeMetroConfigTransformers
                [Bare (createMetroConfigTransformer (add_key "z" (JNum 9)))]
                (APromise (resolved (RFun passing))))
       1%positive {[1%positive := {["a" := JNum 1]}]})
  = Some {["a" := JNum 1; "z" := JNum 9]}.
Proof. vm_compute. reflexivity. Qed.

(** Test 6.2: the options of a tuple reach the mutation. *)
Example tuple_options_reach_mutation :
  composeMetroConfigTransformers
    [Tuple (createMetroConfigTransformer Sample.add_option) (Some 5)]
    (AObj 1) 0
  = (Ok (AObj 6), 1).
Proof. reflexivity. Qed.

(** Test 2.4: without options the mutation sees [undefined]. *)
Example bare_entry_sees_undefined :
  composeMetroConfigTransformers
    [Bare (createMetroConfigTransformer Sample.add_option)] (AObj 1) 0
  = (Ok (AObj 1), 1).
Proof. reflexivity. Qed.

(** A transformer of another make can tell [[T, undefined]] from [T]:
    the equivalence of C10 rests on how the adapter reads its
    parameter. *)
Example arity_matters_elsewhere :
  composeMetroConfigTransformers [Tuple Sample.arity_probe None] (AObj 0) 0
  ≠ composeMetroConfigTransformers [Bare Sample.arity_probe] (AObj 0) 0.
Proof. discriminate. Qed.

(** Outside the chains of the specification, whose entries are adapted:
    that a rejection passes through the entries after it is the doing of
    the adapter.  [reduce] hands the rejecting promise on, and a
    transformer of another make is free to handle it. *)
Example foreign_entry_may_recover :
  settled (composeMetroConfigTransformers
             [Bare (createMetroConfigTransformer (Sample.rejecting "boom"));
              Bare (Sample.recovering 42)]
             (AObj 0))
    0 0
  = (Ok 42, 1).
Proof. reflexivity. Qed.

(** Test 5.4 read closely: appending to a missing [order] is a
    [TypeError], thrown by the mutation and passed on by the chain. *)
Example appending_needs_an_order :
  settled (composeMetroConfigTransformers
             (map entry_of [next_entry (AsBare, Sync, "step2")])
             (AObj 1%positive))
    1%positive {[1%positive := {["a" := JNum 1]}]}
  = (Throw "TypeError", {[1%positive := {["a" := JNum 1]}]}).
Proof. vm_compute. reflexivity. Qed.

(** [reduce] does not stop at a rejecting promise: the entry after a
    rejecting one is called while the chain is composed, here leaving
    its trace in the world, even though the rejection then passes. *)
Example later_entry_is_still_called :
  settled (composeMetroConfigTransformers
             [Bare (createMetroConfigTransformer (Sample.rejecting "boom"))]
             (AObj 0)) 0 0
  = (Throw "boom", 1)
  ∧ settled (composeMetroConfigTransformers
               [Bare (createMetroConfigTransformer (Sample.rejecting "boom"));
                Bare Sample.announcing]
               (AObj 0)) 0 0
    = (Throw "boom", 2).
Proof. split; reflexivity. Qed.

(** C5, as stated, fails.  Were it so that a chain failing at an entry
    fails the same way, with nothing more run, whatever entries come
    after, then a rejection could not be turned into a configuration by
    a later entry; a transformer that catches rejections does that. *)
Lemma chain_failure_counterexample :
  ¬ (∀ (es1 : list (transformerEntry nat nat string nat)) e es2 input
       (baseConfig w : nat) x w',
       settled (composeMetroConfigTransformers (es1 ++ [e]) input)
         baseConfig w = (Throw x, w') →
       settled (composeMetroConfigTransformers (es1 ++ e :: es2) input)
         baseConfig w = (Throw x, w')).
Proof.
  intros H.
  specialize (H [] (Bare (createMetroConfigTransformer (Sample.rejecting "boom")))
                [Bare (Sample.recovering 42)] (AObj 0) 0 0 "boom" 1 eq_refl).
  discriminate H.
Qed.

(** * Instances *)

Lemma adapter_on_callable_witness :
  (instanceof_Promise
     (Thenable (then_ (resolved 6) (λ config, Sample.add 1 config None)))
   = true ↔
     (∃ p, Sample.double_async 3 0 = (Ok (Thenable p), 0))
     ∨ (∃ c w1 q, Sample.double_async 3 0 = (Ok (Plain c), w1)
                  ∧ Sample.add 1 c None w1 = (Ok (Thenable q), 0)))
  ∧ (∃ q, wrapped (Sample.add 1) None Sample.double_async 3 0
          = (Ok (Thenable q), 0)
          ∧ await q 0 = (Ok 7, 1)).
Proof.
  pose proof (adapter_on_callable (Sample.add 1) Sample.double_async
                ArgOmitted 0) as (_ & Hiff & Hdeferred).
  split.
  - apply (Hiff 3 0 _ 0). reflexivity.
  - destruct (Hdeferred 3 0 (resolved 6) 0 eq_refl) as (q & Hq & Hawait).
    exists q. split; [exact Hq|]. rewrite Hawait. reflexivity.
Defined.

Lemma adapter_on_promise_witness :
  (∃ q c',
     createMetroConfigTransformer (Sample.add_async 1)
       (APromise (resolved (RObj 5))) ArgOmitted 0
     = (Ok (APromise q), 0)
     ∧ await q 0 = (Ok (RObj c'), 1))
  ∧ (∃ q g,
       createMetroConfigTransformer (Sample.add 1)
         (APromise (resolved (RFun Sample.double))) ArgOmitted 0
       = (Ok (APromise q), 0)
       ∧ await q 0 = (Ok (RFun g), 0)
       ∧ g 3 0 = (Ok (Plain 7), 1)).
Proof.
  split.
  - destruct (adapter_on_promise (Sample.add_async 1) (resolved (RObj 5))
                ArgOmitted 0) as (q & Hq & Hawait & Hshape & _).
    assert (await q 0 = (Ok (RObj 6), 1)) as H6.
    { rewrite Hawait. reflexivity. }
    destruct (Hshape 0 5 0 eq_refl (RObj 6) 1 H6) as [c' Hc'].
    exists q, c'. split; [exact Hq|]. rewrite <- Hc'. exact H6.
  - destruct (adapter_on_promise (Sample.add 1)
                (resolved (RFun Sample.double)) ArgOmitted 0)
      as (q & Hq & _ & _ & Hcallable).
    destruct (Hcallable 0 Sample.double 0 eq_refl) as (g & Hg & Hbehaves).
    exists q, g. split; [exact Hq|]. split; [exact Hg|].
    exact (Hbehaves 3 0).
Defined.

Lemma markers_in_entry_order_witness :
  ∃ (c : loc) (h' : heap),
    settled (composeMetroConfigTransformers
               (map entry_of
                  (first_entry (AsBare, Sync, "step1")
                   :: map next_entry
                        [(AsTuple (Some (JNum 7)), AsyncNow, "step2");
                         (AsBare, AsyncLater, "step3");
                         (AsTuple None, Sync, "step4")]))
               (AObj 1%positive))
      1%positive {[1%positive := {["projectRoot" := JStr "/test"]}]}
    = (Ok c, h')
    ∧ property h' c "order" = Some (JArr ["step1"; "step2"; "step3"; "step4"]).
Proof.
  apply (proj1 (proj2 (proj2 markers_in_entry_order))
           (AsBare, Sync, "step1")
           [(AsTuple (Some (JNum 7)), AsyncNow, "step2");
            (AsBare, AsyncLater, "step3");
            (AsTuple None, Sync, "step4")]
           (AObj 1%positive) 1%positive
           {[1%positive := {["projectRoot" := JStr "/test"]}]}
           1%positive {[1%positive := {["projectRoot" := JStr "/test"]}]}).
  reflexivity.
Defined.

Lemma chain_failure_witness :
  composeMetroConfigTransformers
    ([Bare (createMetroConfigTransformer (Sample.add 1))]
     ++ Bare (createMetroConfigTransformer (Sample.failing "boom"))
     :: [Bare (createMetroConfigTransformer (Sample.add 10))])
    (AObj 0) 0
  = (Throw "boom", 2)
  ∧ settled (composeMetroConfigTransformers
               ([Bare (createMetroConfigTransformer (Sample.add 1));
                 Bare (createMetroConfigTransformer (Sample.rejecting "boom"))]
                ++ map entry_of [ABare (Sample.add 10); ABare (Sample.add 20)])
               (APromise (resolved (RObj 0))))
      3 0
    = (Throw "boom", 2)
  ∧ settled (composeMetroConfigTransformers
               (map entry_of
                  ([ABare (Sample.add 1)]
                   ++ ABare (Sample.rejecting "boom")
                   :: [ABare (Sample.add 10)]))
               (AFun Sample.double))
      3 0
    = (Throw "boom", 2).
Proof.
  split; [|split].
  - apply (proj1 chain_failure
             [Bare (createMetroConfigTransformer (Sample.add 1))]
             (Bare (createMetroConfigTransformer (Sample.failing "boom")))
             [Bare (createMetroConfigTransformer (Sample.add 10))]
             (AObj 0) 0 (AObj 1) 1 "boom" 2); reflexivity.
  - apply (proj1 (proj2 chain_failure)
             [Bare (createMetroConfigTransformer (Sample.add 1));
              Bare (createMetroConfigTransformer (Sample.rejecting "boom"))]
             [ABare (Sample.add 10); ABare (Sample.add 20)]
             (APromise (resolved (RObj 0))) 3 0 "boom" 2); reflexivity.
  - apply (proj2 (proj2 chain_failure)
             [ABare (Sample.add 1)] (ABare (Sample.rejecting "boom"))
             [ABare (Sample.add 10)] (AFun Sample.double) 3 0 7 1 "boom" 2);
      reflexivity.
Defined.

Lemma inner_failure_witness :
  wrapped (Sample.add 1) None (Sample.throwing "boom") 3 0 = (Throw "boom", 0)
  ∧ (∃ q, wrapped (Sample.add 1) None (Sample.rejecting_producer "boom") 3 0
          = (Ok (Thenable q), 0)
          ∧ await q 0 = (Throw "boom", 0))
  ∧ settled (createMetroConfigTransformer (Sample.add 1)
               (APromise (resolved (RFun (Sample.throwing "boom"))))
               ArgOmitted) 3 0
    = (Throw "boom", 0).
Proof.
  split; [|split].
  - apply (proj1 (inner_failure (Sample.add 1) (Sample.throwing "boom")
                    ArgOmitted 3 0)). reflexivity.
  - destruct (proj1 (proj2 (inner_failure (Sample.add 1)
                              (Sample.rejecting_producer "boom")
                              ArgOmitted 3 0))
                (rejected "boom") 0 eq_refl) as (q & Hq & Hreject).
    exists q. split; [exact Hq|]. apply Hreject. reflexivity.
  - apply (proj2 (proj2 (inner_failure (Sample.add 1) Sample.double
                           ArgOmitted 3 0))). reflexivity.
Defined.

Lemma direct_input_untouched_witness :
  fields
    (createMetroConfigTransformer (tagger Sync "t") (AObj 1%positive)
       ArgOmitted {[1%positive := {["a" := JNum 1; "order" := JArr ["s"]]}]}).2
    1%positive
  = fields {[1%positive := {["a" := JNum 1; "order" := JArr ["s"]]}]} 1%positive.
Proof.
  apply (direct_input_untouched (tagger Sync "t") 1%positive ArgOmitted
           {[1%positive := {["a" := JNum 1; "order" := JArr ["s"]]}]}).
  - apply tagger_leaves_argument.
  - vm_compute. eexists. reflexivity.
Defined.

(** * Further properties of the adapter and the composer *)

Section Further.

Context {config W err opts : Type}.

#[local] Notation "x <- m ;; k" := (bind m (λ x, k))
  (at level 100, m at next level, right associativity).

Implicit Types (mutate : mutation config W err opts)
  (f : producer config W err)
  (t : transformer config W err opts)
  (input acc : anyMetroConfig config W err)
  (e : transformerEntry config W err opts)
  (es : list (transformerEntry config W err opts))
  (u : adapted config W err opts)
  (us : list (adapted config W err opts))
  (options : option opts) (a : optarg opts)
  (baseConfig : config) (w : W).

(** X1. The adapter does not care which shape carries the configuration:
    for every input, settling the output is settling the input and then
    running the mutation, once, on the configuration that gives, with
    the options of the call. *)
Theorem adapter_commutes_with_settling mutate input a baseConfig w :
  settled (createMetroConfigTransformer mutate input a) baseConfig w
  = (c <- settle input baseConfig ;; mutated mutate (param a) c) w.
Proof. apply adapter_settles. Qed.

(** X2. A chain of adapted entries, bare or with options, on an input of
    any shape: settling the output is settling the input and then
    running the mutations in entry order, each with its own options on
    the configuration the one before delivered. *)
Theorem adapted_chain_runs_in_order us input baseConfig w :
  settled (composeMetroConfigTransformers (map entry_of us) input) baseConfig w
  = (c <- settle input baseConfig ;; steps us c) w
  ∧ (∀ u c0 w0,
       step_of u c0 w0 = mutated (mutation_of u) (options_of u) c0 w0).
Proof. split; [apply chain_settles|]. by intros [m|m o] c0 w0. Qed.

(** X3. Two inputs that settle alike, whatever their shapes, give
    outputs that settle alike under every chain of adapted entries. *)
Theorem shapes_are_interchangeable us (x y : anyMetroConfig config W err)
    baseConfig w :
  settle x baseConfig w = settle y baseConfig w →
  settled (composeMetroConfigTransformers (map entry_of us) x) baseConfig w
  = settled (composeMetroConfigTransformers (map entry_of us) y) baseConfig w.
Proof.
  intros Hxy. rewrite !chain_settles. unfold bind. by rewrite Hxy.
Qed.

(** X4. Combined transformers nest: one used as an entry of another
    chain, bare or in a tuple whose options it ignores, does what its
    entries would do written out in its place; in particular the
    transformer of a concatenation is one combined transformer after
    the other. *)
Theorem composed_transformer_nests es1 es2 es3 input w :
  composeMetroConfigTransformers (es1 ++ Bare (composed es2) :: es3) input w
    = composeMetroConfigTransformers (es1 ++ es2 ++ es3) input w
  ∧ (∀ options,
       composeMetroConfigTransformers
         (es1 ++ Tuple (composed es2) options :: es3) input w
       = composeMetroConfigTransformers (es1 ++ es2 ++ es3) input w)
  ∧ composeMetroConfigTransformers (es1 ++ es2) input w
    = (acc <- composed es1 input ArgOmitted ;; composed es2 acc ArgOmitted) w.
Proof.
  assert (∀ e, (∀ acc w', apply_entry acc e w'
                          = composeMetroConfigTransformers es2 acc w') →
          composeMetroConfigTransformers (es1 ++ e :: es3) input w
          = composeMetroConfigTransformers (es1 ++ es2 ++ es3) input w) as H.
  { intros e He. rewrite compose_middle, compose_app.
    apply bind_ext. intros acc w'. rewrite compose_app.
    by apply bind_ext_l. }
  split; [by apply H|]. split; [intros options; by apply H|].
  apply compose_app.
Qed.

(** X5. Two adapted transformers in a row are, to the caller, one
    adapted transformer: that of the mutation which runs the first
    mutation and hands its result, awaited if it is a promise, to the
    second. *)
Theorem adapted_pair_fuses (m1 m2 : mutation config W err opts) o1 o2
    input baseConfig w :
  settled (composeMetroConfigTransformers
             [Tuple (createMetroConfigTransformer m1) o1;
              Tuple (createMetroConfigTransformer m2) o2] input) baseConfig w
  = settled (createMetroConfigTransformer
               (λ c (_ : option opts), wrapped m2 o2 (λ c', m1 c' o1) c)
               input ArgOmitted)
      baseConfig w.
Proof.
  etrans; [exact (chain_settles [ATuple m1 o1; ATuple m2 o2] input baseConfig w)|].
  rewrite adapter_settles. apply bind_ext. intros c w'.
  cbn [steps step_of param]. unfold mutated at 3.
  rewrite (wrapped_settles m2 o2 (λ c', m1 c' o1) c w'). cbn [settle].
  unfold mutated at 1. rewrite !bind_assoc. apply bind_ext. intros r w''.
  apply bind_ext. intros c1 w1. apply bind_ret_r.
Qed.

(** Composition over a callable: every adapted entry wraps, nothing is
    called. *)
Lemma compose_over_callable us f :
  ∃ g, ∀ w,
    composeMetroConfigTransformers (map entry_of us) (AFun f) w
    = (Ok (AFun g), w).
Proof.
  revert f. induction us as [|u us IH]; intros f.
  - by exists f.
  - destruct (IH (wrapped (mutation_of u) (options_of u) f)) as [g Hg].
    exists g. intros w. rewrite <- (Hg w). by destruct u.
Qed.

(** Composition over a promise: every adapted entry chains a [.then]. *)
Lemma compose_over_promise us (p : promise W err (resolution config W err)) :
  ∃ q, ∀ w,
    composeMetroConfigTransformers (map entry_of us) (APromise p) w
    = (Ok (APromise q), w).
Proof.
  revert p. induction us as [|u us IH]; intros p.
  - by exists p.
  - destruct u as [m|m o].
    + destruct (IH (then_ p (λ resolved0,
          match resolved0 with
          | RFun f => ret (Plain (RFun (wrapped m None f)))
          | RObj c => r <- m c None ;; ret (as_thenable r)
          end))) as [q Hq].
      exists q. intros w. by rewrite <- (Hq w).
    + destruct (IH (then_ p (λ resolved0,
          match resolved0 with
          | RFun f => ret (Plain (RFun (wrapped m o f)))
          | RObj c => r <- m c o ;; ret (as_thenable r)
          end))) as [q Hq].
      exists q. intros w. by rewrite <- (Hq w).
Qed.

Lemma entry_on_direct u (c : config) w :
  apply_entry (AObj c) (entry_of u) w
  = (r <- mutation_of u c (options_of u) ;; ret (as_any r)) w.
Proof. by destruct u. Qed.

Lemma step_of_mutated u (c : config) w :
  step_of u c w = mutated (mutation_of u) (options_of u) c w.
Proof. by destruct u. Qed.

(** X6. What a chain of adapted entries returns, by the shape of the
    input.  Over a callable it returns a callable, over a promise a
    promise, and in both cases composing throws nothing and leaves the
    world alone: no mutation and no inner callable runs before the
    caller invokes or awaits the result.  Over a direct input it returns
    a configuration or a promise, never a callable. *)
Theorem composition_keeps_shape us :
  (∀ f, ∃ g, ∀ w,
     composeMetroConfigTransformers (map entry_of us) (AFun f) w
     = (Ok (AFun g), w))
  ∧ (∀ p, ∃ q, ∀ w,
     composeMetroConfigTransformers (map entry_of us) (APromise p) w
     = (Ok (APromise q), w))
  ∧ (∀ (c : config) w out w',
     composeMetroConfigTransformers (map entry_of us) (AObj c) w
     = (Ok out, w') →
     (∃ c', out = AObj c') ∨ (∃ q, out = APromise q)).
Proof.
  split; [apply compose_over_callable|]. split; [apply compose_over_promise|].
  induction us as [|u us IH]; intros c w out w' Hrun.
  - cbv in Hrun. simplify_eq. eauto.
  - cbn [map] in Hrun. rewrite compose_cons in Hrun.
    unfold bind in Hrun at 1. rewrite entry_on_direct in Hrun.
    unfold bind in Hrun at 1.
    destruct (mutation_of u c (options_of u) w) as [[[c1|p]|x] w1];
      cbn in Hrun; [by eapply IH| |done].
    destruct (compose_over_promise us (as_resolution p)) as [q Hq].
    rewrite Hq in Hrun. simplify_eq. eauto.
Qed.

(** X7. With mutations that are plain functions, a chain over a direct
    input runs them all while it is composed, in entry order, and
    returns the last configuration directly; it throws what the first
    failing mutation throws. *)
Theorem sync_chain_on_direct us (c : config) w :
  Forall (λ u, synchronous (mutation_of u)) us →
  composeMetroConfigTransformers (map entry_of us) (AObj c) w
  = (c' <- steps us c ;; ret (AObj c')) w.
Proof.
  intros Hsync. revert c w. induction Hsync as [|u us Hu _ IH]; intros c w.
  - reflexivity.
  - cbn [map steps]. rewrite compose_cons.
    etrans; [apply bind_ext_l, entry_on_direct|]. rewrite !bind_assoc.
    etrans; [|symmetry; apply bind_ext_l, step_of_mutated].
    unfold mutated. rewrite bind_assoc.
    destruct (mutation_of u c (options_of u) w) as [[[c1|p]|x] w1] eqn:Hm.
    + rewrite !(bind_ok _ _ _ _ _ Hm). exact (IH c1 w1).
    + by apply Hu in Hm.
    + by rewrite !(bind_throw _ _ _ _ _ Hm).
Qed.

(** X8. Once a mutation returns a promise, the chain's result is a
    promise: over a direct input, if the entries so far gave a
    configuration and the next mutation returns a promise for it, the
    whole chain returns a promise, in the world that mutation left, so
    the mutations after it have not run yet; they run, in order, on
    what that promise resolves to when the result is awaited. *)
Theorem deferred_from_first_promise us1 u us2 (c c1 : config) w w1 p w2 :
  composeMetroConfigTransformers (map entry_of us1) (AObj c) w
    = (Ok (AObj c1), w1) →
  mutation_of u c1 (options_of u) w1 = (Ok (Thenable p), w2) →
  ∃ q,
    composeMetroConfigTransformers (map entry_of (us1 ++ u :: us2)) (AObj c) w
      = (Ok (APromise q), w2)
    ∧ ∀ baseConfig w3,
        (x <- await q ;; settle_resolution x baseConfig) w3
        = (c' <- await p ;; steps us2 c') w3.
Proof.
  intros H1 Hu.
  destruct (compose_over_promise us2 (as_resolution p)) as [q Hq].
  exists q. split.
  - rewrite map_app. cbn [map]. rewrite compose_middle.
    rewrite (bind_ok _ _ _ _ _ H1). unfold bind at 1.
    rewrite entry_on_direct. unfold bind at 1. rewrite Hu. apply Hq.
  - intros baseConfig w3.
    pose proof (chain_settles us2 (APromise (as_resolution p)) baseConfig w3) as Hc.
    unfold settled in Hc. rewrite (bind_ok _ _ _ _ _ (Hq w3)) in Hc.
    etrans; [exact Hc|]. cbn [settle as_resolution await].
    rewrite !bind_assoc. apply bind_ext. by intros c' w'.
Qed.

Lemma wrapped_always_deferred mutate options f :
  always_deferred f → always_deferred (wrapped mutate options f).
Proof.
  intros Hf baseConfig w r w' Hr.
  pose proof (wrapped_cases mutate options f baseConfig w) as Hc.
  destruct (f baseConfig w) as [[[c|p]|x] w1] eqn:Hfw; rewrite Hc in Hr.
  - by apply Hf in Hfw.
  - by simplify_eq.
  - done.
Qed.

Lemma wrapped_never_deferred mutate options f :
  never_deferred f → synchronous mutate →
  never_deferred (wrapped mutate options f).
Proof.
  intros Hf Hm baseConfig w r w' Hr.
  pose proof (wrapped_cases mutate options f baseConfig w) as Hc.
  destruct (f baseConfig w) as [[[c|p]|x] w1] eqn:Hfw; rewrite Hc in Hr.
  - by eapply Hm.
  - by apply Hf in Hfw.
  - done.
Qed.

(** X9. The callable a chain returns for a callable keeps its kind.
    Over an [async] function it only ever returns promises, whatever
    the mutations are; over a plain function, with mutations that are
    plain functions, it never returns one. *)
Theorem callable_keeps_its_kind us f :
  (always_deferred f →
   ∃ g, (∀ w, composeMetroConfigTransformers (map entry_of us) (AFun f) w
              = (Ok (AFun g), w))
        ∧ always_deferred g)
  ∧ (never_deferred f →
     Forall (λ u, synchronous (mutation_of u)) us →
     ∃ g, (∀ w, composeMetroConfigTransformers (map entry_of us) (AFun f) w
                = (Ok (AFun g), w))
          ∧ never_deferred g).
Proof.
  split.
  - revert f. induction us as [|u us IH]; intros f Hf.
    + by exists f.
    + destruct (IH (wrapped (mutation_of u) (options_of u) f)) as (g & Hg & Hk).
      { by apply wrapped_always_deferred. }
      exists g. split; [|done]. intros w. rewrite <- (Hg w). by destruct u.
  - intros Hf Hsync. revert f Hf.
    induction Hsync as [|u us Hu _ IH]; intros f Hf.
    + by exists f.
    + destruct (IH (wrapped (mutation_of u) (options_of u) f)) as (g & Hg & Hk).
      { by apply wrapped_never_deferred. }
      exists g. split; [|done]. intros w. rewrite <- (Hg w). by destruct u.
Qed.

(** X11. Where a throwing mutation surfaces.  Over a promise the
    transformer itself returns normally and the promise it returns
    rejects with the mutation's error; the same holds for the wrapped
    callable when the inner callable returned a promise.  Only when the
    inner callable returned a configuration does the wrapped callable
    throw. *)
Theorem mutation_throw_surfaces mutate a (c : config) (x : err) w1 w2 :
  mutate c (param a) w1 = (Throw x, w2) →
  (∀ p w w0, await p w0 = (Ok (RObj c), w1) →
     ∃ q, createMetroConfigTransformer mutate (APromise p) a w
            = (Ok (APromise q), w)
          ∧ await q w0 = (Throw x, w2))
  ∧ (∀ f baseConfig w w' p w0,
       f baseConfig w = (Ok (Thenable p), w') →
       await p w0 = (Ok c, w1) →
       ∃ q, wrapped mutate (param a) f baseConfig w = (Ok (Thenable q), w')
            ∧ await q w0 = (Throw x, w2))
  ∧ (∀ f baseConfig w,
       f baseConfig w = (Ok (Plain c), w1) →
       wrapped mutate (param a) f baseConfig w = (Throw x, w2)).
Proof.
  intros Hm. split; [|split].
  - intros p w w0 Hp. eexists. split; [reflexivity|].
    cbn [then_ await]. rewrite (bind_ok _ _ _ _ _ Hp).
    apply bind_throw. by apply bind_throw.
  - intros f baseConfig w w' p w0 Hf Hp.
    pose proof (wrapped_cases mutate (param a) f baseConfig w) as Hc.
    rewrite Hf in Hc. eexists. split; [exact Hc|].
    rewrite await_then_mutate, (bind_ok _ _ _ _ _ Hp).
    by apply bind_throw.
  - intros f baseConfig w Hf.
    pose proof (wrapped_cases mutate (param a) f baseConfig w) as Hc.
    rewrite Hf in Hc. by rewrite Hc.
Qed.

Lemma steps_keep_invariant (I : W → Prop) us :
  Forall (λ u, ∀ c w r w', I w → step_of u c w = (r, w') → I w') us →
  ∀ (c : config) w r w', I w → steps us c w = (r, w') → I w'.
Proof.
  induction 1 as [|u us Hu _ IH]; intros c w r w' Hw Hrun.
  - cbv in Hrun. by simplify_eq.
  - cbn [steps] in Hrun. unfold bind in Hrun.
    destruct (step_of u c w) as [[c1|x] w1] eqn:Hstep.
    + eapply IH; [|exact Hrun]. eapply Hu; [exact Hw|exact Hstep].
    + simplify_eq. eapply Hu; [exact Hw|exact Hstep].
Qed.

(** X10. The adapter and the composer change nothing in the world
    themselves: a property of the world that settling the input keeps
    and that every mutation of the chain keeps, whether it returns or
    fails, holds after the chain's output is settled, whether that
    succeeds or fails. *)
Theorem chain_keeps_invariant (I : W → Prop) us input baseConfig w r w' :
  (∀ w0 r0 w1, I w0 → settle input baseConfig w0 = (r0, w1) → I w1) →
  Forall (λ u, ∀ c w0 r0 w1, I w0 → step_of u c w0 = (r0, w1) → I w1) us →
  I w →
  settled (composeMetroConfigTransformers (map entry_of us) input) baseConfig w
    = (r, w') →
  I w'.
Proof.
  intros Hin Hsteps Hw Hrun. rewrite chain_settles in Hrun.
  unfold bind in Hrun.
  destruct (settle input baseConfig w) as [[c|x] w1] eqn:Hs.
  - eapply steps_keep_invariant; [exact Hsteps| |exact Hrun].
    eapply Hin; [exact Hw|exact Hs].
  - simplify_eq. eapply Hin; [exact Hw|exact Hs].
Qed.

End Further.

(** A tagging mutation run to its configuration writes into no object
    that exists. *)
Lemma tagger_keeps_objects (e : timing * string) (c l : loc) (h : heap)
    (r : outcome string loc) (h' : heap) :
  is_Some (fields h l) →
  step_of (tag_entry e) c h = (r, h') →
  fields h' l = fields h l.
Proof.
  intros Hl Hstep. destruct e as [t tag]. cbn [tag_entry step_of fst snd] in Hstep.
  rewrite tagger_settles in Hstep. unfold push_tag, spread_with in Hstep.
  destruct (spread_elements (property h c "order")); simplify_eq; [|done].
  unfold fields in *.
  apply lookup_insert_ne. intros <-.
  apply (is_fresh (dom h)). by apply elem_of_dom.
Qed.

(** * Instances of the further properties *)

Lemma shapes_are_interchangeable_witness :
  settled (composeMetroConfigTransformers
             (map entry_of [ABare (Sample.add 1);
                            ATuple Sample.add_option (Some 5)])
             (AObj 3)) 0 0
  = settled (composeMetroConfigTransformers
               (map entry_of [ABare (Sample.add 1);
                              ATuple Sample.add_option (Some 5)])
               (APromise (resolved (RObj 3)))) 0 0.
Proof.
  apply (shapes_are_interchangeable
           [ABare (Sample.add 1); ATuple Sample.add_option (Some 5)]
           (AObj 3) (APromise (resolved (RObj 3))) 0 0).
  reflexivity.
Defined.

Lemma composition_keeps_shape_witness :
  (∃ c', (AObj 1 : anyMetroConfig nat nat string) = AObj c')
  ∨ (∃ q, (AObj 1 : anyMetroConfig nat nat string) = APromise q).
Proof.
  apply (proj2 (proj2 (composition_keeps_shape [ABare (Sample.add 1)]))
           0 0 (AObj 1) 1).
  reflexivity.
Defined.

Lemma sync_chain_on_direct_witness :
  composeMetroConfigTransformers
    (map entry_of [ABare (Sample.add 1); ATuple Sample.add_option (Some 5)])
    (AObj 0) 0
  = bind (steps [ABare (Sample.add 1); ATuple Sample.add_option (Some 5)] 0)
      (λ c', ret (AObj c')) 0.
Proof.
  apply (sync_chain_on_direct
           [ABare (Sample.add 1); ATuple Sample.add_option (Some 5)] 0 0).
  repeat constructor; intros c o w r w' H; cbv in H; by simplify_eq.
Defined.

Lemma deferred_from_first_promise_witness :
  ∃ q,
    composeMetroConfigTransformers
      (map entry_of ([ABare (Sample.add 1)]
                     ++ ABare (Sample.add_async 2) :: [ABare (Sample.add 10)]))
      (AObj 0) 0
    = (Ok (APromise q), 2)
    ∧ bind (await q) (λ x, settle_resolution x 0) 2 = (Ok 13, 3).
Proof.
  destruct (deferred_from_first_promise
              [ABare (Sample.add 1)] (ABare (Sample.add_async 2))
              [ABare (Sample.add 10)] 0 1 0 1 (resolved 3) 2
              eq_refl eq_refl) as (q & Hq & Hawait).
  exists q. split; [exact Hq|]. rewrite Hawait. reflexivity.
Defined.

Lemma callable_keeps_its_kind_witness :
  (∃ g, (∀ w, composeMetroConfigTransformers
                (map entry_of [ABare (Sample.add 1)])
                (AFun Sample.double_async) w
              = (Ok (AFun g), w))
        ∧ always_deferred g)
  ∧ (∃ g, (∀ w, composeMetroConfigTransformers
                  (map entry_of [ABare (Sample.add 1)])
                  (AFun Sample.double) w
                = (Ok (AFun g), w))
          ∧ never_deferred g).
Proof.
  split.
  - apply (proj1 (callable_keeps_its_kind [ABare (Sample.add 1)]
                    Sample.double_async)).
    intros c w r w' H. cbv in H. by simplify_eq.
  - apply (proj2 (callable_keeps_its_kind [ABare (Sample.add 1)]
                    Sample.double)).
    + intros c w r w' H. cbv in H. by simplify_eq.
    + repeat constructor. intros c o w r w' H. cbv in H. by simplify_eq.
Defined.

Lemma chain_keeps_invariant_witness :
  fields
    (settled (composeMetroConfigTransformers
                (map entry_of
                   (map tag_entry [(Sync, "x"); (AsyncLater, "y")]))
                (AObj 1%positive))
       1%positive {[1%positive := {["a" := JNum 1; "order" := JArr []]}]}).2
    1%positive
  = Some {["a" := JNum 1; "order" := JArr []]}.
Proof.
  apply (chain_keeps_invariant
           (λ h : heap, fields h 1%positive = Some {["a" := JNum 1; "order" := JArr []]})
           (map tag_entry [(Sync, "x"); (AsyncLater, "y")])
           (AObj 1%positive) 1%positive
           {[1%positive := {["a" := JNum 1; "order" := JArr []]}]}
           (settled (composeMetroConfigTransformers
                       (map entry_of
                          (map tag_entry [(Sync, "x"); (AsyncLater, "y")]))
                       (AObj 1%positive))
              1%positive {[1%positive := {["a" := JNum 1; "order" := JArr []]}]}).1).
  - intros w0 r0 w1 H0 Hs. cbv in Hs. by simplify_eq.
  - repeat constructor; intros c w0 r0 w1 H0 Hs;
      rewrite (tagger_keeps_objects _ _ _ _ _ _ (mk_is_Some _ _ H0) Hs);
      exact H0.
  - reflexivity.
  - apply surjective_pairing.
Defined.

Lemma mutation_throw_surfaces_witness :
  (∃ q, createMetroConfigTransformer (Sample.failing "boom")
          (APromise (resolved (RObj 5))) ArgOmitted 0
        = (Ok (APromise q), 0)
        ∧ await q 0 = (Throw "boom", 1))
  ∧ (∃ q, wrapped (Sample.failing "boom") None Sample.double_async 3 0
          = (Ok (Thenable q), 0)
          ∧ await q 0 = (Throw "boom", 1))
  ∧ wrapped (Sample.failing "boom") None Sample.double 3 0 = (Throw "boom", 1).
Proof.
  split; [|split].
  - apply (proj1 (mutation_throw_surfaces (Sample.failing "boom") ArgOmitted
                    5 "boom" 0 1 eq_refl) (resolved (RObj 5)) 0 0).
    reflexivity.
  - apply (proj1 (proj2 (mutation_throw_surfaces (Sample.failing "boom")
                           ArgOmitted 6 "boom" 0 1 eq_refl))
             Sample.double_async 3 0 0 (resolved 6) 0); reflexivity.
  - apply (proj2 (proj2 (mutation_throw_surfaces (Sample.failing "boom")
                           ArgOmitted 6 "boom" 0 1 eq_refl))
             Sample.double 3 0).
    reflexivity.
Defined.
